(** * Linter registry and tree enforcer of melange (pkg/build/linter.go)

    A shallow embedding of [lintPackageFs], the four built-in linters, the
    [Linters] registry, and the part of Go's [io/fs.WalkDir] that drives the
    traversal. *)

From Stdlib Require Import ZArith Lia Bool List Strings.String Strings.Ascii.
Import ListNotations.
Open Scope string_scope.

(** ** Go values *)

(** Go [error] values as this code produces and inspects them: the sentinels
    [fs.SkipDir] and [fs.SkipAll] (compared with [==] by [WalkDir]), errors
    built by [fmt.Errorf] without a verb [%w], errors built by [fmt.Errorf]
    with one [%w] (text before it, wrapped error, text after it), and errors
    coming from the file system, identified by their text. *)
Inductive error : Type :=
| SkipDir
| SkipAll
| Errorf (msg : string)
| Wrapf (before : string) (cause : error) (after : string)
| FsError (msg : string).

(** [err.Error()] *)
Fixpoint Error (e : error) : string :=
  match e with
  | SkipDir => "skip this directory"
  | SkipAll => "skip everything and stop the walk"
  | Errorf m => m
  | Wrapf b c a => b ++ Error c ++ a
  | FsError m => m
  end.

(** [errors.Unwrap] *)
Definition Unwrap (e : error) : option error :=
  match e with
  | Wrapf _ c _ => Some c
  | _ => None
  end.

(** [err == fs.SkipDir], [err == fs.SkipAll]: identity of the sentinel. *)
Definition is_SkipDir (e : error) : bool :=
  match e with SkipDir => true | _ => false end.
Definition is_SkipAll (e : error) : bool :=
  match e with SkipAll => true | _ => false end.

(** A Go result [error] is [nil] ([None]) or an error. *)
Definition goerr : Type := option error.

Definition dquote : string := String (Ascii.ascii_of_nat 34) EmptyString.

(** [fs.FileMode] is a [uint32]; [ModeSetuid = 1 << (32-1-8)],
    [ModeSetgid = 1 << (32-1-9)]. *)
Definition FileMode := Z.
Definition ModeSetuid : FileMode := Z.shiftl 1 23.
Definition ModeSetgid : FileMode := Z.shiftl 1 22.

(** [fs.DirEntry]: its name, [IsDir()], and [Info()], which returns the
    mode of the [FileInfo] or an error. *)
Record DirEntry := mkDirEntry {
  Name : string;
  IsDir : bool;
  Info : FileMode + error
}.

(** ** Regular expressions of the source

    [strip_prefix p s] consumes the literal [p] at the start of [s]. *)
Fixpoint strip_prefix (p s : string) : option string :=
  match p, s with
  | EmptyString, _ => Some s
  | String c p', String c' s' =>
      if Ascii.eqb c c' then strip_prefix p' s' else None
  | String _ _, EmptyString => None
  end.

Definition has_prefix (p s : string) : bool :=
  match strip_prefix p s with Some _ => true | None => false end.

(** [isUsrLocalRegex = ^usr/local/] *)
Definition isUsrLocalRegex_MatchString (s : string) : bool :=
  has_prefix "usr/local/" s.

(** [isVarEmptyRegex = ^var/empty/] *)
Definition isVarEmptyRegex_MatchString (s : string) : bool :=
  has_prefix "var/empty/" s.

(** [(tmp|run)/] at the current position *)
Definition tmp_or_run (s : string) : bool :=
  has_prefix "tmp/" s || has_prefix "run/" s.

(** [isTempDirRegex = ^(var/)?(tmp|run)/]: with the optional group taken,
    or skipped. *)
Definition isTempDirRegex_MatchString (s : string) : bool :=
  match strip_prefix "var/" s with
  | Some r => tmp_or_run r
  | None => false
  end || tmp_or_run s.

(** [isCompatPackage = -compat$]: unanchored at the start, so a match
    begins at some position of [s] and reaches the end of the text. *)
Fixpoint isCompatPackage_MatchString (s : string) : bool :=
  String.eqb s "-compat" ||
  match s with
  | EmptyString => false
  | String _ s' => isCompatPackage_MatchString s'
  end.

(** ** Linters *)

(** [LinterContext]: only [pkgname] is read by the linters; the parsed
    configuration [cfg] and [chk] are carried unread. *)
Record LinterContext := mkLinterContext {
  pkgname : string
}.

Definition LinterFunc := LinterContext -> string -> DirEntry -> goerr.

Record Linter := mkLinter {
  LinterFn : LinterFunc;
  Explain : string
}.

Definition usrLocalLinter : LinterFunc := fun lctx path _ =>
  if isCompatPackage_MatchString (pkgname lctx) then None
  else if isUsrLocalRegex_MatchString path
  then Some (Errorf "/usr/local path found in non-compat package")
  else None.

Definition varEmptyLinter : LinterFunc := fun _ path _ =>
  if isVarEmptyRegex_MatchString path
  then Some (Errorf "Package writes to /var/empty")
  else None.

Definition tempDirLinter : LinterFunc := fun _ path _ =>
  if isTempDirRegex_MatchString path
  then Some (Errorf "Package writes to a temp dir")
  else None.

Definition isSetUidOrGidLinter : LinterFunc := fun _ _ d =>
  match Info d with
  | inr err => Some err
  | inl mode =>
      if negb (Z.land mode ModeSetuid =? 0)%Z then Some (Errorf "File is setuid")
      else if negb (Z.land mode ModeSetgid =? 0)%Z then Some (Errorf "File is setgid")
      else None
  end.

(** [var Linters = map[string]Linter{...}] *)
Definition Linters : list (string * Linter) :=
  [ ("setuidgid", mkLinter isSetUidOrGidLinter
       "Unset the setuid/setgid bit on the relevant files, or remove this linter");
    ("tempdir", mkLinter tempDirLinter
       "Remove any offending files in temporary dirs in the pipeline");
    ("usrlocal", mkLinter usrLocalLinter
       "This package should be a -compat package");
    ("varempty", mkLinter varEmptyLinter
       "Remove any offending files in /var/empty in the pipeline") ].

(** [linter, present := Linters[name]] *)
Fixpoint map_lookup (m : list (string * Linter)) (k : string) : option Linter :=
  match m with
  | [] => None
  | (k', v) :: m' => if String.eqb k k' then Some v else map_lookup m' k
  end.

Definition lookup_Linter (name : string) : option Linter := map_lookup Linters name.

(** ** The file system and [fs.WalkDir] *)

(** A file system node: its directory entry, and for a directory the
    entries [fs.ReadDir] returns (already sorted by name, as [ReadDir]
    returns them) together with the error [ReadDir] reported, if any. *)
#[local] Set Warnings "-register-all".
Inductive node : Type :=
| Node (d : DirEntry) (children : list node) (readdir_err : option error).

(** The file system handed to [lintPackageFs]: [fs.Stat(fsys, ".")] fails,
    or it succeeds and the tree below the root is described by a node. *)
Inductive FS : Type :=
| StatFails (e : error)
| Tree (root : node).

(** [path.Join(name, child)] for a single path component [child]. *)
Definition path_Join (name child : string) : string :=
  if String.eqb name "." then child else name ++ "/" ++ child.

(** [fs.WalkDirFunc]: path, entry ([nil] only for a failed root [Stat]),
    and the error the walk delivers. *)
Definition WalkDirFunc := string -> option DirEntry -> option error -> goerr.

(** [walkDir(fsys, name, d, fn)] of io/fs/walk.go *)
Fixpoint walkDir (fn : WalkDirFunc) (name : string) (n : node) : goerr :=
  match n with
  | Node d children rderr =>
      match fn name (Some d) None with
      | Some err => if is_SkipDir err && IsDir d then None else Some err
      | None =>
          if negb (IsDir d) then None else
          let second :=
            match rderr with
            | None => None
            | Some e =>
                match fn name (Some d) (Some e) with
                | Some err => Some (if is_SkipDir err && IsDir d then None else Some err)
                | None => None
                end
            end in
          match second with
          | Some r => r
          | None =>
              (fix loop (l : list node) : goerr :=
                 match l with
                 | [] => None
                 | (Node d1 _ _ as n1) :: l' =>
                     match walkDir fn (path_Join name (Name d1)) n1 with
                     | Some err => if is_SkipDir err then None else Some err
                     | None => loop l'
                     end
                 end) children
          end
      end
  end.

(** [fs.WalkDir(fsys, ".", fn)] *)
Definition WalkDir (fsys : FS) (fn : WalkDirFunc) : goerr :=
  let err :=
    match fsys with
    | StatFails e => fn "." None (Some e)
    | Tree n => walkDir fn "." n
    end in
  match err with
  | Some e => if is_SkipDir e || is_SkipAll e then None else Some e
  | None => None
  end.

(** ** [lintPackageFs] *)

Definition traverse_error (path : string) (err : error) : error :=
  Wrapf ("Error traversing tree at " ++ path ++ ": ") err "".

Definition unknown_error (linterName : string) : error :=
  Errorf ("Linter " ++ linterName ++ " is unknown").

Definition linter_error (linterName path : string) (err : error) (explain : string) : error :=
  Wrapf ("Linter " ++ linterName ++ " failed at path " ++ dquote ++ path ++ dquote ++ ": ")
        err ("; suggest: " ++ explain).

(** [for _, linterName := range linters { ... }] *)
Fixpoint run_linters (lctx : LinterContext) (path : string) (d : DirEntry)
    (linters : list string) : goerr :=
  match linters with
  | [] => None
  | linterName :: rest =>
      match lookup_Linter linterName with
      | None => Some (unknown_error linterName)
      | Some linter =>
          match LinterFn linter lctx path d with
          | Some err => Some (linter_error linterName path err (Explain linter))
          | None => run_linters lctx path d rest
          end
      end
  end.

(** [walkCb] *)
Definition walkCb (lctx : LinterContext) (linters : list string) : WalkDirFunc :=
  fun path d err =>
    match err with
    | Some e => Some (traverse_error path e)
    | None =>
        match d with
        | Some d => run_linters lctx path d linters
        | None => None (* not reached: WalkDir passes a nil entry only with an error *)
        end
    end.

Definition lintPackageFs (lctx : LinterContext) (fsys : FS) (linters : list string) : goerr :=
  match WalkDir fsys (walkCb lctx linters) with
  | Some err => Some err
  | None => None
  end.

(** ** The order of a run

    The calls a walk makes to its callback when every call returns [nil],
    in order; and the steps of [lintPackageFs] within them: a delivered
    traversal error, or one looked-up check on one entry. *)
Fixpoint node_events (name : string) (n : node)
    : list (string * option DirEntry * option error) :=
  match n with
  | Node d children rderr =>
      (name, Some d, None) ::
      if IsDir d then
        match rderr with Some e => [(name, Some d, Some e)] | None => [] end ++
        flat_map (fun c => match c with
                           | Node d1 _ _ => node_events (path_Join name (Name d1)) c
                           end) children
      else []
  end.

Definition walk_events (fsys : FS) : list (string * option DirEntry * option error) :=
  match fsys with
  | StatFails e => [(".", None, Some e)]
  | Tree n => node_events "." n
  end.

Inductive step : Type :=
| TraverseStep (path : string) (e : error)
| CheckStep (path : string) (d : DirEntry) (linterName : string).

Definition event_steps (linters : list string)
    (ev : string * option DirEntry * option error) : list step :=
  match ev with
  | (path, d, err) =>
      match err with
      | Some e => [TraverseStep path e]
      | None => match d with Some d => map (CheckStep path d) linters | None => [] end
      end
  end.

Definition steps (fsys : FS) (linters : list string) : list step :=
  flat_map (event_steps linters) (walk_events fsys).

Definition step_result (lctx : LinterContext) (s : step) : goerr :=
  match s with
  | TraverseStep path e => Some (traverse_error path e)
  | CheckStep path d linterName =>
      match lookup_Linter linterName with
      | None => Some (unknown_error linterName)
      | Some linter =>
          match LinterFn linter lctx path d with
          | Some err => Some (linter_error linterName path err (Explain linter))
          | None => None
          end
      end
  end.

(** The first failure of a sequence. *)
Fixpoint first_failure (l : list goerr) : goerr :=
  match l with
  | [] => None
  | Some e :: _ => Some e
  | None :: l' => first_failure l'
  end.

(** [sub] occurs in [s]. *)
Definition contains (sub s : string) : Prop := exists a b, s = a ++ sub ++ b.

Definition default_linters : list string := ["setuidgid"; "tempdir"; "usrlocal"; "varempty"].

(** * Properties *)

(** ** Strings *)

Lemma strip_prefix_app (p r : string) : strip_prefix p (p ++ r) = Some r.
Proof.
  induction p as [|c p IH]; simpl; [reflexivity|].
  rewrite Ascii.eqb_refl. exact IH.
Qed.

Lemma strip_prefix_spec (p s r : string) :
  strip_prefix p s = Some r -> s = p ++ r.
Proof.
  revert s; induction p as [|c p IH]; intros s H; simpl in *.
  - congruence.
  - destruct s as [|c' s']; [discriminate|].
    destruct (Ascii.eqb c c') eqn:E; [|discriminate].
    apply Ascii.eqb_eq in E; subst. f_equal. apply IH, H.
Qed.

Lemma has_prefix_iff (p s : string) :
  has_prefix p s = true <-> exists r, s = p ++ r.
Proof.
  unfold has_prefix; split.
  - destruct (strip_prefix p s) eqn:E; [|discriminate].
    intros _. exists s0. apply strip_prefix_spec, E.
  - intros [r ->]. rewrite strip_prefix_app. reflexivity.
Qed.

Lemma isCompatPackage_iff (s : string) :
  isCompatPackage_MatchString s = true <-> exists pre, s = pre ++ "-compat".
Proof.
  induction s as [|c s IH].
  - split; [discriminate|]. intros [[|c pre] H]; discriminate.
  - change (isCompatPackage_MatchString (String c s)) with
      (String.eqb (String c s) "-compat" || isCompatPackage_MatchString s).
    rewrite Bool.orb_true_iff, String.eqb_eq, IH. split.
    + intros [H | [pre ->]].
      * exists EmptyString. exact H.
      * exists (String c pre). reflexivity.
    + intros [[|c' pre] H].
      * left. exact H.
      * right. exists pre. simpl in H. injection H as _ H. exact H.
Qed.

Lemma contains_app3 (a sub b : string) : contains sub (a ++ sub ++ b).
Proof. exists a, b. reflexivity. Qed.

Lemma append_assoc_str (a b c : string) : (a ++ b) ++ c = a ++ b ++ c.
Proof. induction a as [|x a IH]; simpl; [reflexivity|]. rewrite IH. reflexivity. Qed.

(** ** First failure of a sequence *)

Lemma first_failure_app (l1 l2 : list goerr) :
  first_failure (l1 ++ l2) =
  match first_failure l1 with Some e => Some e | None => first_failure l2 end.
Proof. induction l1 as [|[e|] l1 IH]; simpl; auto. Qed.

Lemma first_failure_flat_map {A B : Type} (f : B -> goerr) (g : A -> list B) (l : list A) :
  first_failure (map f (flat_map g l)) =
  first_failure (map (fun x => first_failure (map f (g x))) l).
Proof.
  induction l as [|x l IH]; simpl; [reflexivity|].
  rewrite map_app, first_failure_app, IH.
  destruct (first_failure (map f (g x))); reflexivity.
Qed.

Lemma first_failure_some {A : Type} (f : A -> goerr) (l : list A) (e : error) :
  first_failure (map f l) = Some e -> exists x, In x l /\ f x = Some e.
Proof.
  induction l as [|x l IH]; simpl; [discriminate|].
  destruct (f x) eqn:E.
  - intros H; injection H as ->. exists x. auto.
  - intros H. destruct (IH H) as [y [Hy Hf]]. exists y. auto.
Qed.

Lemma first_failure_prefix {A : Type} (f : A -> goerr) (pre post : list A) (x : A) :
  Forall (fun y => f y = None) pre ->
  first_failure (map f (pre ++ x :: post)) =
  match f x with Some e => Some e | None => first_failure (map f post) end.
Proof.
  intros H. induction H as [|y pre Hy _ IH]; simpl; [reflexivity|].
  rewrite Hy. exact IH.
Qed.

(** ** The walk *)

Section NodeInduction.
Variable P : node -> Prop.
Hypothesis HNode : forall d cs r, Forall P cs -> P (Node d cs r).

Fixpoint node_ind' (n : node) : P n :=
  match n with
  | Node d cs r =>
      HNode d cs r
        ((fix go (l : list node) : Forall P l :=
            match l with
            | [] => Forall_nil P
            | c :: l' => Forall_cons c (node_ind' c) (go l')
            end) cs)
  end.
End NodeInduction.

Definition call (fn : WalkDirFunc) (ev : string * option DirEntry * option error) : goerr :=
  match ev with (p, d, e) => fn p d e end.

(** A callback that never returns [fs.SkipDir] or [fs.SkipAll]. *)
Definition no_skip (fn : WalkDirFunc) : Prop :=
  forall p d e err, fn p d e = Some err -> is_SkipDir err = false /\ is_SkipAll err = false.

Section Walk.
Variable fn : WalkDirFunc.
Hypothesis Hfn : no_skip fn.

Lemma walkDir_events (n : node) (name : string) :
  walkDir fn name n = first_failure (map (call fn) (node_events name n)).
Proof.
  revert name. induction n as [d cs r Hcs] using node_ind'. intros name.
  simpl. destruct (fn name (Some d) None) as [err|] eqn:E1.
  - destruct (Hfn _ _ _ _ E1) as [-> _]. reflexivity.
  - destruct (IsDir d); simpl; [|reflexivity].
    rewrite map_app, first_failure_app.
    destruct r as [e|]; simpl.
    + destruct (fn name (Some d) (Some e)) as [err|] eqn:E2.
      * destruct (Hfn _ _ _ _ E2) as [-> _]. reflexivity.
      * simpl. clear E1 E2.
        induction Hcs as [|[d1 cs1 r1] cs' Hc _ IH]; cbn -[walkDir node_events]; [reflexivity|].
        rewrite map_app, first_failure_app, <- Hc.
        destruct (walkDir fn (path_Join name (Name d1)) (Node d1 cs1 r1)) as [err|] eqn:E3.
        -- rewrite Hc in E3. destruct (first_failure_some _ _ _ E3) as [[[p dd] ee] [_ Hx]].
           simpl in Hx. destruct (Hfn _ _ _ _ Hx) as [-> _]. reflexivity.
        -- exact IH.
    + clear E1.
      induction Hcs as [|[d1 cs1 r1] cs' Hc _ IH]; cbn -[walkDir node_events]; [reflexivity|].
      rewrite map_app, first_failure_app, <- Hc.
      destruct (walkDir fn (path_Join name (Name d1)) (Node d1 cs1 r1)) as [err|] eqn:E3.
      * rewrite Hc in E3. destruct (first_failure_some _ _ _ E3) as [[[p dd] ee] [_ Hx]].
        simpl in Hx. destruct (Hfn _ _ _ _ Hx) as [-> _]. reflexivity.
      * exact IH.
Qed.

Lemma WalkDir_events (fsys : FS) :
  WalkDir fsys fn = first_failure (map (call fn) (walk_events fsys)).
Proof.
  unfold WalkDir. destruct fsys as [e|n]; simpl.
  - destruct (fn "." None (Some e)) as [err|] eqn:E; [|reflexivity].
    destruct (Hfn _ _ _ _ E) as [-> ->]. reflexivity.
  - rewrite walkDir_events.
    destruct (first_failure (map (call fn) (node_events "." n))) as [err|] eqn:E;
      [|reflexivity].
    destruct (first_failure_some _ _ _ E) as [[[p d] e] [_ Hx]].
    destruct (Hfn _ _ _ _ Hx) as [-> ->]. reflexivity.
Qed.
End Walk.

(** ** [lintPackageFs] as the first failure of its steps *)

Lemma run_linters_no_skip (lctx : LinterContext) path d linters err :
  run_linters lctx path d linters = Some err ->
  is_SkipDir err = false /\ is_SkipAll err = false.
Proof.
  induction linters as [|n l IH]; simpl; [discriminate|].
  destruct (lookup_Linter n) as [lin|]; [|intros H; injection H as <-; auto].
  destruct (LinterFn lin lctx path d); [intros H; injection H as <-; auto|exact IH].
Qed.

Lemma walkCb_no_skip (lctx : LinterContext) (linters : list string) :
  no_skip (walkCb lctx linters).
Proof.
  intros p d e err. unfold walkCb. destruct e as [e|].
  - intros H; injection H as <-; auto.
  - destruct d as [d|]; [apply run_linters_no_skip|discriminate].
Qed.

Lemma run_linters_steps (lctx : LinterContext) path d linters :
  run_linters lctx path d linters =
  first_failure (map (step_result lctx) (map (CheckStep path d) linters)).
Proof.
  induction linters as [|n l IH]; simpl; [reflexivity|].
  destruct (lookup_Linter n); [|reflexivity].
  destruct (LinterFn l0 lctx path d); [reflexivity|exact IH].
Qed.

Lemma walkCb_steps (lctx : LinterContext) (linters : list string) ev :
  call (walkCb lctx linters) ev =
  first_failure (map (step_result lctx) (event_steps linters ev)).
Proof.
  destruct ev as [[p [d|]] [e|]]; simpl; try reflexivity.
  apply run_linters_steps.
Qed.

Lemma lintPackageFs_events (lctx : LinterContext) (fsys : FS) (linters : list string) :
  lintPackageFs lctx fsys linters =
  first_failure (map (call (walkCb lctx linters)) (walk_events fsys)).
Proof.
  unfold lintPackageFs. rewrite (WalkDir_events _ (walkCb_no_skip lctx linters)).
  destruct (first_failure _); reflexivity.
Qed.

Lemma lintPackageFs_steps (lctx : LinterContext) (fsys : FS) (linters : list string) :
  lintPackageFs lctx fsys linters =
  first_failure (map (step_result lctx) (steps fsys linters)).
Proof.
  rewrite lintPackageFs_events. unfold steps. rewrite first_failure_flat_map.
  f_equal. apply map_ext. intros ev. apply walkCb_steps.
Qed.

(** The first failing step decides the result. *)
Lemma lintPackageFs_first_step (lctx : LinterContext) (fsys : FS) (linters : list string)
    (pre : list step) (s : step) (post : list step) (err : error) :
  steps fsys linters = (pre ++ s :: post)%list ->
  Forall (fun s' => step_result lctx s' = None) pre ->
  step_result lctx s = Some err ->
  lintPackageFs lctx fsys linters = Some err.
Proof.
  intros Hs Hpre Hst. rewrite lintPackageFs_steps, Hs, first_failure_prefix by exact Hpre.
  rewrite Hst. reflexivity.
Qed.

Lemma lintPackageFs_check_failure (lctx : LinterContext) (fsys : FS) (linters : list string)
    (pre : list step) path d name (post : list step) linter cause :
  steps fsys linters = (pre ++ CheckStep path d name :: post)%list ->
  Forall (fun s => step_result lctx s = None) pre ->
  lookup_Linter name = Some linter ->
  LinterFn linter lctx path d = Some cause ->
  lintPackageFs lctx fsys linters = Some (linter_error name path cause (Explain linter)).
Proof.
  intros Hs Hpre Hl Hf. apply (lintPackageFs_first_step _ _ _ _ _ _ _ Hs Hpre).
  simpl. rewrite Hl, Hf. reflexivity.
Qed.

Lemma run_linters_unknown (lctx : LinterContext) path d linters bad :
  In bad linters -> lookup_Linter bad = None ->
  run_linters lctx path d linters <> None.
Proof.
  intros Hin Hbad. induction linters as [|n l IH]; [destruct Hin|].
  simpl. destruct Hin as [<- | Hin].
  - rewrite Hbad. discriminate.
  - destruct (lookup_Linter n); [|discriminate].
    destruct (LinterFn l0 lctx path d); [discriminate|]. apply IH, Hin.
Qed.

(** ** The linters *)

(** Paths the [tempdir] pattern [^(var/)?(tmp|run)/] is meant to cover. *)
Definition under_temp_dir (path : string) : Prop :=
  exists r, path = "tmp/" ++ r \/ path = "run/" ++ r \/
            path = "var/tmp/" ++ r \/ path = "var/run/" ++ r.

Lemma tmp_or_run_iff (s : string) :
  tmp_or_run s = true <-> exists r, s = "tmp/" ++ r \/ s = "run/" ++ r.
Proof.
  unfold tmp_or_run. rewrite Bool.orb_true_iff, !has_prefix_iff. split.
  - intros [[r H] | [r H]]; exists r; auto.
  - intros [r [H | H]]; [left | right]; exists r; exact H.
Qed.

Lemma isTempDirRegex_iff (path : string) :
  isTempDirRegex_MatchString path = true <-> under_temp_dir path.
Proof.
  unfold isTempDirRegex_MatchString, under_temp_dir. rewrite Bool.orb_true_iff, tmp_or_run_iff.
  split.
  - intros [H | [r [H | H]]].
    + destruct (strip_prefix "var/" path) as [s|] eqn:E; [|discriminate].
      apply strip_prefix_spec in E. apply tmp_or_run_iff in H.
      destruct H as [r [-> | ->]]; subst path; exists r; auto.
    + exists r; auto.
    + exists r; auto.
  - intros [r [H | [H | [H | H]]]]; subst path.
    + right. exists r. auto.
    + right. exists r. auto.
    + left. change ("var/tmp/" ++ r) with ("var/" ++ ("tmp/" ++ r)).
      rewrite strip_prefix_app. apply tmp_or_run_iff. exists r. auto.
    + left. change ("var/run/" ++ r) with ("var/" ++ ("run/" ++ r)).
      rewrite strip_prefix_app. apply tmp_or_run_iff. exists r. auto.
Qed.

(** C2: under a package name not ending in [-compat], every path under
    [usr/local/] fails [usrlocal] with "/usr/local path found in non-compat
    package"; under a name ending in [-compat], [usrlocal] passes every path. *)
Theorem usrLocalLinter_spec :
  (forall lctx path d,
     ~ (exists pre, pkgname lctx = pre ++ "-compat") ->
     (exists r, path = "usr/local/" ++ r) ->
     usrLocalLinter lctx path d = Some (Errorf "/usr/local path found in non-compat package")) /\
  (forall lctx path d,
     (exists pre, pkgname lctx = pre ++ "-compat") ->
     usrLocalLinter lctx path d = None).
Proof.
  split.
  - intros lctx path d Hnc Hp. unfold usrLocalLinter.
    destruct (isCompatPackage_MatchString (pkgname lctx)) eqn:E.
    + exfalso. apply Hnc, isCompatPackage_iff, E.
    + unfold isUsrLocalRegex_MatchString. apply has_prefix_iff in Hp. rewrite Hp. reflexivity.
  - intros lctx path d Hc. unfold usrLocalLinter.
    apply isCompatPackage_iff in Hc. rewrite Hc. reflexivity.
Qed.

Lemma usrLocalLinter_spec_witness :
  usrLocalLinter (mkLinterContext "foo") "usr/local/bin/x" (mkDirEntry "x" false (inl 420%Z))
    = Some (Errorf "/usr/local path found in non-compat package") /\
  usrLocalLinter (mkLinterContext "foo-compat") "usr/local/bin/x" (mkDirEntry "x" false (inl 420%Z))
    = None.
Proof.
  split.
  - apply (proj1 usrLocalLinter_spec).
    + intros Hc. apply isCompatPackage_iff in Hc. vm_compute in Hc. discriminate.
    + exists "bin/x". reflexivity.
  - apply (proj2 usrLocalLinter_spec). exists "foo". reflexivity.
Defined.

(** The mode an entry reports through [Info()]. *)
Definition entry_mode (d : DirEntry) (mode : FileMode) : Prop := Info d = inl mode.

Definition setuid_set (mode : FileMode) : Prop := Z.land mode ModeSetuid <> 0%Z.
Definition setgid_set (mode : FileMode) : Prop := Z.land mode ModeSetgid <> 0%Z.

Lemma land_nonzero_neqb (m b : Z) : Z.land m b <> 0%Z -> negb (Z.land m b =? 0)%Z = true.
Proof. intros H. apply Bool.negb_true_iff, Z.eqb_neq, H. Qed.

Lemma land_zero_neqb (m b : Z) : Z.land m b = 0%Z -> negb (Z.land m b =? 0)%Z = false.
Proof. intros H. rewrite H. reflexivity. Qed.

(** C4 (as stated): every entry with the setgid bit set, whatever its
    setuid bit, fails [setuidgid] with "File is setgid".  It does not hold:
    with both bits set the message is "File is setuid". *)
Lemma setuidgid_setgid_message_counterexample :
  let d := mkDirEntry "su" false (inl (Z.lor ModeSetuid ModeSetgid)) in
  setgid_set (Z.lor ModeSetuid ModeSetgid) /\
  isSetUidOrGidLinter (mkLinterContext "foo") "usr/bin/su" d <> Some (Errorf "File is setgid").
Proof.
  split.
  - unfold setgid_set. vm_compute. discriminate.
  - vm_compute. discriminate.
Qed.

(** C4 (amended): an entry whose setgid bit is set fails [setuidgid],
    whatever its setuid bit; the message is "File is setgid" when the setuid
    bit is clear and "File is setuid" when it is set; an entry with neither
    bit set passes. *)
Theorem isSetUidOrGidLinter_setgid (lctx : LinterContext) (path : string) (d : DirEntry)
    (mode : FileMode) :
  entry_mode d mode ->
  (setgid_set mode ->
     isSetUidOrGidLinter lctx path d <> None /\
     (~ setuid_set mode -> isSetUidOrGidLinter lctx path d = Some (Errorf "File is setgid")) /\
     (setuid_set mode -> isSetUidOrGidLinter lctx path d = Some (Errorf "File is setuid"))) /\
  (~ setuid_set mode -> ~ setgid_set mode -> isSetUidOrGidLinter lctx path d = None).
Proof.
  unfold entry_mode, setuid_set, setgid_set, isSetUidOrGidLinter. intros Hm. rewrite Hm.
  split.
  - intros Hg. rewrite (land_nonzero_neqb _ _ Hg).
    destruct (Z.eq_dec (Z.land mode ModeSetuid) 0%Z) as [Hu0|Hu1].
    + rewrite (land_zero_neqb _ _ Hu0).
      split; [discriminate|]. split; [reflexivity|]. intros H; contradiction.
    + rewrite (land_nonzero_neqb _ _ Hu1).
      split; [discriminate|]. split; [intros H; contradiction|reflexivity].
  - intros Hu Hg.
    apply Decidable.not_not in Hu; [|unfold Decidable.decidable; lia].
    apply Decidable.not_not in Hg; [|unfold Decidable.decidable; lia].
    rewrite (land_zero_neqb _ _ Hu), (land_zero_neqb _ _ Hg). reflexivity.
Qed.

Lemma isSetUidOrGidLinter_setgid_witness :
  let d := mkDirEntry "sg" false (inl ModeSetgid) in
  entry_mode d ModeSetgid /\
  isSetUidOrGidLinter (mkLinterContext "foo") "usr/bin/sg" d = Some (Errorf "File is setgid").
Proof.
  split; [reflexivity|].
  apply (isSetUidOrGidLinter_setgid (mkLinterContext "foo") "usr/bin/sg"
           (mkDirEntry "sg" false (inl ModeSetgid)) ModeSetgid eq_refl).
  - unfold setgid_set. vm_compute. discriminate.
  - unfold setuid_set. vm_compute. intros H; apply H; reflexivity.
Defined.

(** C9: an entry with both the setuid and the setgid bit set fails
    [setuidgid] with "File is setuid", never with "File is setgid". *)
Theorem isSetUidOrGidLinter_setuid_first (lctx : LinterContext) (path : string) (d : DirEntry)
    (mode : FileMode) :
  entry_mode d mode -> setuid_set mode -> setgid_set mode ->
  isSetUidOrGidLinter lctx path d = Some (Errorf "File is setuid") /\
  isSetUidOrGidLinter lctx path d <> Some (Errorf "File is setgid").
Proof.
  unfold entry_mode, setuid_set, isSetUidOrGidLinter. intros Hm Hu _. rewrite Hm.
  rewrite (land_nonzero_neqb _ _ Hu). split; [reflexivity|].
  intros H. injection H. discriminate.
Qed.

Lemma isSetUidOrGidLinter_setuid_first_witness :
  isSetUidOrGidLinter (mkLinterContext "foo") "usr/bin/su"
    (mkDirEntry "su" false (inl (Z.lor ModeSetuid ModeSetgid))) = Some (Errorf "File is setuid").
Proof.
  apply (isSetUidOrGidLinter_setuid_first (mkLinterContext "foo") "usr/bin/su"
           (mkDirEntry "su" false (inl (Z.lor ModeSetuid ModeSetgid)))
           (Z.lor ModeSetuid ModeSetgid) eq_refl).
  - unfold setuid_set. vm_compute. discriminate.
  - unfold setgid_set. vm_compute. discriminate.
Defined.

(** C6: [tempdir] fails with "Package writes to a temp dir" exactly on the
    paths under [tmp/], [run/], [var/tmp/] or [var/run/] and passes every
    other path, among them those under [usr/tmp/]. *)
Theorem tempDirLinter_spec (lctx : LinterContext) (path : string) (d : DirEntry) :
  (tempDirLinter lctx path d = Some (Errorf "Package writes to a temp dir") <->
   under_temp_dir path) /\
  (tempDirLinter lctx path d = None <-> ~ under_temp_dir path) /\
  (forall r, tempDirLinter lctx ("usr/tmp/" ++ r) d = None).
Proof.
  unfold tempDirLinter. split; [|split].
  - rewrite <- isTempDirRegex_iff.
    destruct (isTempDirRegex_MatchString path); split; congruence.
  - rewrite <- isTempDirRegex_iff.
    destruct (isTempDirRegex_MatchString path); split; congruence.
  - intros r. reflexivity.
Qed.

Lemma tempDirLinter_spec_witness :
  tempDirLinter (mkLinterContext "foo") "var/run/x.pid" (mkDirEntry "x.pid" false (inl 420%Z))
    = Some (Errorf "Package writes to a temp dir").
Proof.
  apply (proj2 (proj1 (tempDirLinter_spec (mkLinterContext "foo") "var/run/x.pid"
                          (mkDirEntry "x.pid" false (inl 420%Z))))).
  exists "x.pid". right. right. right. reflexivity.
Defined.

(** ** Runs over a tree *)

(** C8: the four default linters pass on a tree holding only its root
    directory, whose mode has neither the setuid nor the setgid bit set,
    whatever the package. *)
Theorem lintPackageFs_empty_tree (lctx : LinterContext) (name : string) (mode : FileMode) :
  ~ setuid_set mode -> ~ setgid_set mode ->
  lintPackageFs lctx (Tree (Node (mkDirEntry name true (inl mode)) [] None)) default_linters = None.
Proof.
  unfold setuid_set, setgid_set. intros Hu Hg.
  apply Decidable.not_not in Hu; [|unfold Decidable.decidable; lia].
  apply Decidable.not_not in Hg; [|unfold Decidable.decidable; lia].
  rewrite lintPackageFs_events. simpl.
  unfold isSetUidOrGidLinter. simpl Info. cbv iota beta.
  rewrite (land_zero_neqb _ _ Hu), (land_zero_neqb _ _ Hg). simpl.
  unfold usrLocalLinter. destruct (isCompatPackage_MatchString (pkgname lctx)); reflexivity.
Qed.

Lemma lintPackageFs_empty_tree_witness :
  lintPackageFs (mkLinterContext "foo") (Tree (Node (mkDirEntry "." true (inl 493%Z)) [] None))
    default_linters = None.
Proof.
  apply lintPackageFs_empty_tree.
  - unfold setuid_set. vm_compute. intros H; apply H; reflexivity.
  - unfold setgid_set. vm_compute. intros H; apply H; reflexivity.
Defined.

(** Sample trees: a directory [etc] that cannot be listed before [tmp],
    which holds the files [a] and [b]. *)
Definition ex_dir (name : string) : DirEntry := mkDirEntry name true (inl 493%Z).
Definition ex_file (name : string) : DirEntry := mkDirEntry name false (inl 420%Z).
Definition ex_readdir_error : error := FsError "open etc: permission denied".
Definition ex_tmp : node :=
  Node (ex_dir "tmp") [Node (ex_file "a") [] None; Node (ex_file "b") [] None] None.
Definition ex_fs_unreadable : FS :=
  Tree (Node (ex_dir ".") [Node (ex_dir "etc") [] (Some ex_readdir_error); ex_tmp] None).
Definition ex_fs_tmp : FS := Tree (Node (ex_dir ".") [ex_tmp] None).
Definition ex_ctx : LinterContext := mkLinterContext "foo".
Definition tempdir_explain : string :=
  "Remove any offending files in temporary dirs in the pipeline".

(** C1 (as stated): with violations at two paths, the error names the first
    violating (entry, check) pair.  It does not hold when another failure
    comes first: here [tmp/a] and [tmp/b] both violate [tempdir], and the
    run reports that [etc] cannot be listed. *)
Lemma lintPackageFs_first_violation_counterexample :
  In ("tmp/a", Some (ex_file "a"), None) (walk_events ex_fs_unreadable) /\
  In ("tmp/b", Some (ex_file "b"), None) (walk_events ex_fs_unreadable) /\
  tempDirLinter ex_ctx "tmp/a" (ex_file "a") = Some (Errorf "Package writes to a temp dir") /\
  tempDirLinter ex_ctx "tmp/b" (ex_file "b") = Some (Errorf "Package writes to a temp dir") /\
  lintPackageFs ex_ctx ex_fs_unreadable ["tempdir"] = Some (traverse_error "etc" ex_readdir_error) /\
  lintPackageFs ex_ctx ex_fs_unreadable ["tempdir"] <>
    Some (linter_error "tempdir" "tmp/a" (Errorf "Package writes to a temp dir") tempdir_explain).
Proof.
  split; [simpl; tauto|]. split; [simpl; tauto|].
  split; [reflexivity|]. split; [reflexivity|]. split; [reflexivity|].
  vm_compute. discriminate.
Qed.

(** C1 (amended): the run returns the error of its first failing step, the
    steps being the checks in list order on each entry in walk order, and
    the traversal errors the walk delivers; so when the first failing step
    is a violation of a check on an entry, the error names that check and
    entry, and no later violation is reported. *)
Theorem lintPackageFs_fail_fast (lctx : LinterContext) (fsys : FS) (linters : list string) :
  lintPackageFs lctx fsys linters = first_failure (map (step_result lctx) (steps fsys linters)) /\
  (forall (pre : list step) (path : string) (d : DirEntry) (name : string) (post : list step)
          (linter : Linter) (cause : error),
     steps fsys linters = (pre ++ CheckStep path d name :: post)%list ->
     Forall (fun s => step_result lctx s = None) pre ->
     lookup_Linter name = Some linter ->
     LinterFn linter lctx path d = Some cause ->
     lintPackageFs lctx fsys linters = Some (linter_error name path cause (Explain linter))).
Proof.
  split.
  - apply lintPackageFs_steps.
  - intros pre path d name post linter cause Hs Hpre Hl Hf.
    exact (lintPackageFs_check_failure _ _ _ _ _ _ _ _ _ _ Hs Hpre Hl Hf).
Qed.

Lemma lintPackageFs_fail_fast_witness :
  lintPackageFs ex_ctx ex_fs_tmp ["tempdir"] =
    Some (linter_error "tempdir" "tmp/a" (Errorf "Package writes to a temp dir") tempdir_explain).
Proof.
  refine (proj2 (lintPackageFs_fail_fast ex_ctx ex_fs_tmp ["tempdir"])
    [CheckStep "." (ex_dir ".") "tempdir"; CheckStep "tmp" (ex_dir "tmp") "tempdir"]
    "tmp/a" (ex_file "a") "tempdir" [CheckStep "tmp/b" (ex_file "b") "tempdir"]
    (mkLinter tempDirLinter tempdir_explain) (Errorf "Package writes to a temp dir")
    _ _ _ _).
  - reflexivity.
  - repeat constructor.
  - reflexivity.
  - reflexivity.
Defined.

Lemma append_empty_str (s : string) : s ++ "" = s.
Proof. induction s as [|c s IH]; simpl; [reflexivity|]. rewrite IH. reflexivity. Qed.

(** The text of a check failure carries the check, the path, the cause and
    the hint. *)
Lemma linter_error_report (name path : string) (cause : error) (explain : string) :
  let e := linter_error name path cause explain in
  contains name (Error e) /\ contains path (Error e) /\
  contains (Error cause) (Error e) /\ contains explain (Error e) /\ Unwrap e = Some cause.
Proof.
  unfold contains, linter_error. cbn [Error Unwrap].
  split; [|split; [|split; [|split]]].
  - exists "Linter ", (" failed at path " ++ dquote ++ path ++ dquote ++ ": " ++
                       Error cause ++ "; suggest: " ++ explain).
    rewrite !append_assoc_str. reflexivity.
  - exists ("Linter " ++ name ++ " failed at path " ++ dquote),
           (dquote ++ ": " ++ Error cause ++ "; suggest: " ++ explain).
    rewrite !append_assoc_str. reflexivity.
  - exists ("Linter " ++ name ++ " failed at path " ++ dquote ++ path ++ dquote ++ ": "),
           ("; suggest: " ++ explain).
    reflexivity.
  - exists ("Linter " ++ name ++ " failed at path " ++ dquote ++ path ++ dquote ++ ": " ++
            Error cause ++ "; suggest: "), "".
    rewrite append_empty_str, !append_assoc_str. reflexivity.
  - reflexivity.
Qed.

(** C5: when a check's predicate fails on an entry during the run, for a
    violation or for an operational failure alike, the single error the run
    returns carries the check's name, the entry's path, the cause (its text,
    and as the wrapped error) and the check's hint. *)
Theorem lintPackageFs_failure_report (lctx : LinterContext) (fsys : FS) (linters : list string)
    (pre : list step) (path : string) (d : DirEntry) (name : string) (post : list step)
    (linter : Linter) (cause : error) :
  steps fsys linters = (pre ++ CheckStep path d name :: post)%list ->
  Forall (fun s => step_result lctx s = None) pre ->
  lookup_Linter name = Some linter ->
  LinterFn linter lctx path d = Some cause ->
  exists e, lintPackageFs lctx fsys linters = Some e /\
    contains name (Error e) /\ contains path (Error e) /\
    contains (Error cause) (Error e) /\ contains (Explain linter) (Error e) /\
    Unwrap e = Some cause.
Proof.
  intros Hs Hpre Hl Hf.
  exists (linter_error name path cause (Explain linter)). split.
  - exact (lintPackageFs_check_failure _ _ _ _ _ _ _ _ _ _ Hs Hpre Hl Hf).
  - apply linter_error_report.
Qed.

Definition setuidgid_explain : string :=
  "Unset the setuid/setgid bit on the relevant files, or remove this linter".
Definition ex_info_error : error := FsError "lstat tmp/a: input/output error".
Definition ex_fs_bad_info : FS :=
  Tree (Node (ex_dir ".") [Node (mkDirEntry "a" false (inr ex_info_error)) [] None] None).

Lemma lintPackageFs_failure_report_witness :
  exists e, lintPackageFs ex_ctx ex_fs_bad_info ["setuidgid"] = Some e /\
    contains "setuidgid" (Error e) /\ contains "a" (Error e) /\
    contains (Error ex_info_error) (Error e) /\ contains setuidgid_explain (Error e) /\
    Unwrap e = Some ex_info_error.
Proof.
  apply (lintPackageFs_failure_report ex_ctx ex_fs_bad_info ["setuidgid"]
    [CheckStep "." (ex_dir ".") "setuidgid"] "a" (mkDirEntry "a" false (inr ex_info_error))
    "setuidgid" [] (mkLinter isSetUidOrGidLinter setuidgid_explain) ex_info_error).
  - reflexivity.
  - repeat constructor.
  - reflexivity.
  - reflexivity.
Defined.

(** C3: a list of checks holding a name absent from [Linters] makes every
    run fail; when looking that name up is the first failure, the error is
    the unknown-linter error for that name. *)
Theorem lintPackageFs_unknown_linter (lctx : LinterContext) (fsys : FS) (linters : list string)
    (bad : string) :
  In bad linters -> lookup_Linter bad = None ->
  lintPackageFs lctx fsys linters <> None /\
  (forall (pre : list step) path d (post : list step),
     steps fsys linters = (pre ++ CheckStep path d bad :: post)%list ->
     Forall (fun s => step_result lctx s = None) pre ->
     lintPackageFs lctx fsys linters = Some (unknown_error bad)).
Proof.
  intros Hin Hbad. split.
  - rewrite lintPackageFs_events. destruct fsys as [e|[d cs r]]; simpl; [discriminate|].
    destruct (run_linters lctx "." d linters) eqn:E; [discriminate|].
    exfalso. exact (run_linters_unknown lctx "." d linters bad Hin Hbad E).
  - intros pre path d post Hs Hpre.
    apply (lintPackageFs_first_step _ _ _ _ _ _ _ Hs Hpre). simpl. rewrite Hbad. reflexivity.
Qed.

Lemma lintPackageFs_unknown_linter_witness :
  lintPackageFs ex_ctx ex_fs_tmp ["tempdir"; "bogus"] = Some (unknown_error "bogus").
Proof.
  apply (proj2 (lintPackageFs_unknown_linter ex_ctx ex_fs_tmp ["tempdir"; "bogus"] "bogus"
                  (or_intror (or_introl eq_refl)) eq_refl)
           [CheckStep "." (ex_dir ".") "tempdir"] "." (ex_dir ".")
           [CheckStep "tmp" (ex_dir "tmp") "tempdir"; CheckStep "tmp" (ex_dir "tmp") "bogus";
            CheckStep "tmp/a" (ex_file "a") "tempdir"; CheckStep "tmp/a" (ex_file "a") "bogus";
            CheckStep "tmp/b" (ex_file "b") "tempdir"; CheckStep "tmp/b" (ex_file "b") "bogus"]).
  - reflexivity.
  - repeat constructor.
Defined.

(** C7: when the walk delivers an error at some path and every earlier call
    of the callback passed, the run returns an error that wraps that cause
    and names the path, whatever checks were requested; the call that gets
    the error runs no check. *)
Theorem lintPackageFs_traverse_error (lctx : LinterContext) (fsys : FS) (linters : list string)
    (pre : list (string * option DirEntry * option error)) (path : string)
    (d : option DirEntry) (e : error) (post : list (string * option DirEntry * option error)) :
  walk_events fsys = (pre ++ (path, d, Some e) :: post)%list ->
  Forall (fun ev => call (walkCb lctx linters) ev = None) pre ->
  exists err, lintPackageFs lctx fsys linters = Some err /\
    err = traverse_error path e /\ Unwrap err = Some e /\
    contains path (Error err) /\ contains (Error e) (Error err) /\
    event_steps linters (path, d, Some e) = [TraverseStep path e].
Proof.
  intros Hev Hpre. exists (traverse_error path e). split.
  - rewrite lintPackageFs_events, Hev, first_failure_prefix by exact Hpre. reflexivity.
  - split; [reflexivity|]. split; [reflexivity|].
    unfold contains, traverse_error. cbn [Error]. split; [|split; [|reflexivity]].
    + exists "Error traversing tree at ", (": " ++ Error e ++ "").
      rewrite !append_assoc_str. reflexivity.
    + exists ("Error traversing tree at " ++ path ++ ": "), "". reflexivity.
Qed.

Lemma lintPackageFs_traverse_error_witness :
  exists err, lintPackageFs ex_ctx ex_fs_unreadable default_linters = Some err /\
    err = traverse_error "etc" ex_readdir_error /\ Unwrap err = Some ex_readdir_error /\
    contains "etc" (Error err) /\ contains (Error ex_readdir_error) (Error err) /\
    event_steps default_linters ("etc", Some (ex_dir "etc"), Some ex_readdir_error) =
      [TraverseStep "etc" ex_readdir_error].
Proof.
  apply (lintPackageFs_traverse_error ex_ctx ex_fs_unreadable default_linters
    [(".", Some (ex_dir "."), None); ("etc", Some (ex_dir "etc"), None)]
    "etc" (Some (ex_dir "etc")) ex_readdir_error
    [("tmp", Some (ex_dir "tmp"), None); ("tmp/a", Some (ex_file "a"), None);
     ("tmp/b", Some (ex_file "b"), None)]).
  - reflexivity.
  - repeat constructor.
Defined.

(** C10: names are looked up entry by entry during the walk.  On the root,
    the first entry visited, the checks listed before a failing one run and
    pass, and the failing check's error is returned, never an unknown-linter
    error for a name listed later; and when [Stat] of the root fails, the
    run reports that, whatever names are listed. *)
Theorem lintPackageFs_lookup_per_entry (lctx : LinterContext) (d : DirEntry) (cs : list node)
    (r : option error) (pre : list string) (c : string) (rest : list string)
    (linter : Linter) (cause : error) :
  Forall (fun n => exists l, lookup_Linter n = Some l /\ LinterFn l lctx "." d = None) pre ->
  lookup_Linter c = Some linter ->
  LinterFn linter lctx "." d = Some cause ->
  lintPackageFs lctx (Tree (Node d cs r)) (pre ++ c :: rest)%list =
    Some (linter_error c "." cause (Explain linter)) /\
  (forall bad, lintPackageFs lctx (Tree (Node d cs r)) (pre ++ c :: rest)%list <>
                 Some (unknown_error bad)) /\
  (forall e, lintPackageFs lctx (StatFails e) (pre ++ c :: rest)%list =
               Some (traverse_error "." e)).
Proof.
  intros Hpre Hl Hf.
  assert (Hrun : lintPackageFs lctx (Tree (Node d cs r)) (pre ++ c :: rest)%list =
                 Some (linter_error c "." cause (Explain linter))).
  { rewrite lintPackageFs_events. simpl.
    rewrite run_linters_steps, (map_app (CheckStep "." d)). cbn [map].
    rewrite first_failure_prefix.
    - simpl. rewrite Hl, Hf. reflexivity.
    - apply Forall_map. eapply Forall_impl; [|exact Hpre].
      intros n [l [Hn Hfn]]. simpl. rewrite Hn, Hfn. reflexivity. }
  split; [exact Hrun|]. split.
  - intros bad. rewrite Hrun. discriminate.
  - intros e. reflexivity.
Qed.

Definition ex_setuid_root : DirEntry := mkDirEntry "." true (inl (Z.lor ModeSetuid 493%Z)).

Lemma lintPackageFs_lookup_per_entry_witness :
  lintPackageFs ex_ctx (Tree (Node ex_setuid_root [ex_tmp] None)) ["tempdir"; "setuidgid"; "bogus"] =
    Some (linter_error "setuidgid" "." (Errorf "File is setuid") setuidgid_explain).
Proof.
  refine (proj1 (lintPackageFs_lookup_per_entry ex_ctx ex_setuid_root [ex_tmp] None
    ["tempdir"] "setuidgid" ["bogus"] (mkLinter isSetUidOrGidLinter setuidgid_explain)
    (Errorf "File is setuid") _ _ _)).
  - constructor; [|constructor].
    exists (mkLinter tempDirLinter tempdir_explain). split; reflexivity.
  - reflexivity.
  - reflexivity.
Defined.

(** * Further properties of linter.go *)

Lemma first_failure_none {A : Type} (f : A -> goerr) (l : list A) :
  first_failure (map f l) = None <-> Forall (fun x => f x = None) l.
Proof.
  induction l as [|x l IH]; simpl.
  - split; auto.
  - destruct (f x) eqn:E; split.
    + discriminate.
    + intros H. inversion H; congruence.
    + intros H. constructor; [exact E|]. apply IH, H.
    + intros H. inversion H; subst. apply IH. assumption.
Qed.

Lemma Forall_flat_map_iff {A B : Type} (P : B -> Prop) (g : A -> list B) (l : list A) :
  Forall P (flat_map g l) <-> Forall (fun x => Forall P (g x)) l.
Proof.
  induction l as [|x l IH]; simpl.
  - split; constructor.
  - rewrite Forall_app, IH. split.
    + intros [H1 H2]. constructor; assumption.
    + intros H. inversion H; subst. split; assumption.
Qed.

Lemma run_linters_app (lctx : LinterContext) path d (l1 l2 : list string) :
  run_linters lctx path d (l1 ++ l2) =
  match run_linters lctx path d l1 with
  | Some e => Some e
  | None => run_linters lctx path d l2
  end.
Proof.
  induction l1 as [|n l1 IH]; simpl; [reflexivity|].
  destruct (lookup_Linter n); [|reflexivity].
  destruct (LinterFn l lctx path d); [reflexivity|exact IH].
Qed.

(** X1: [varempty] fails with "Package writes to /var/empty" exactly on the
    paths under [var/empty/], and passes every other path, among them those
    under [var/empty2/]. *)
Theorem varEmptyLinter_spec (lctx : LinterContext) (path : string) (d : DirEntry) :
  (varEmptyLinter lctx path d = Some (Errorf "Package writes to /var/empty") <->
   exists r, path = "var/empty/" ++ r) /\
  (varEmptyLinter lctx path d = None <-> ~ exists r, path = "var/empty/" ++ r) /\
  (forall r, varEmptyLinter lctx ("var/empty2/" ++ r) d = None).
Proof.
  unfold varEmptyLinter, isVarEmptyRegex_MatchString. split; [|split].
  - rewrite <- has_prefix_iff.
    destruct (has_prefix "var/empty/" path); split; congruence.
  - rewrite <- has_prefix_iff.
    destruct (has_prefix "var/empty/" path); split; congruence.
  - intros r. reflexivity.
Qed.

(** X3: [usrlocal] fails exactly when the package name does not end in
    [-compat] and the path is under [usr/local/]; otherwise it passes. *)
Theorem usrLocalLinter_iff (lctx : LinterContext) (path : string) (d : DirEntry) :
  (usrLocalLinter lctx path d = Some (Errorf "/usr/local path found in non-compat package") <->
   ~ (exists pre, pkgname lctx = pre ++ "-compat") /\ exists r, path = "usr/local/" ++ r) /\
  (usrLocalLinter lctx path d = None <->
   (exists pre, pkgname lctx = pre ++ "-compat") \/ ~ exists r, path = "usr/local/" ++ r).
Proof.
  unfold usrLocalLinter, isUsrLocalRegex_MatchString.
  rewrite <- isCompatPackage_iff, <- has_prefix_iff.
  destruct (isCompatPackage_MatchString (pkgname lctx));
    destruct (has_prefix "usr/local/" path); intuition congruence.
Qed.

(** An event of the walk passes under [linters]: no error is delivered, and
    on its entry every listed name is known and its check passes. *)
Definition event_passes (lctx : LinterContext) (linters : list string)
    (ev : string * option DirEntry * option error) : Prop :=
  match ev with
  | (path, d, err) =>
      err = None /\
      forall dd, d = Some dd -> forall n, In n linters ->
        exists lin, lookup_Linter n = Some lin /\ LinterFn lin lctx path dd = None
  end.

Lemma event_steps_pass_iff (lctx : LinterContext) (linters : list string) ev :
  Forall (fun s => step_result lctx s = None) (event_steps linters ev) <->
  event_passes lctx linters ev.
Proof.
  destruct ev as [[path d] [e|]]; simpl.
  - split; [intros H; inversion H; discriminate|intros [H _]; discriminate].
  - destruct d as [dd|].
    + rewrite Forall_map, Forall_forall. split.
      * intros H. split; [reflexivity|]. intros dd' Hdd n Hn. injection Hdd as <-.
        specialize (H n Hn). simpl in H.
        destruct (lookup_Linter n) as [lin|]; [|discriminate].
        exists lin. split; [reflexivity|].
        destruct (LinterFn lin lctx path dd); [discriminate|reflexivity].
      * intros [_ H] n Hn. destruct (H dd eq_refl n Hn) as [lin [Hl Hf]].
        simpl. rewrite Hl, Hf. reflexivity.
    + split; [intros _; split; [reflexivity|intros dd Hdd; discriminate]|constructor].
Qed.

Lemma lintPackageFs_none_iff (lctx : LinterContext) (fsys : FS) (linters : list string) :
  lintPackageFs lctx fsys linters = None <->
  Forall (event_passes lctx linters) (walk_events fsys).
Proof.
  rewrite lintPackageFs_steps, first_failure_none. unfold steps.
  rewrite Forall_flat_map_iff, !Forall_forall. split.
  - intros H ev Hev. apply event_steps_pass_iff, H, Hev.
  - intros H ev Hev. apply event_steps_pass_iff, H, Hev.
Qed.

(** X4: a run succeeds exactly when the walk delivers no error and, on
    every entry it visits, every listed name is in the registry and its
    check passes. *)
Theorem lintPackageFs_success_iff (lctx : LinterContext) (fsys : FS) (linters : list string) :
  lintPackageFs lctx fsys linters = None <->
  Forall (event_passes lctx linters) (walk_events fsys).
Proof. apply lintPackageFs_none_iff. Qed.

(** X5: with no checks listed, a run succeeds exactly when the walk
    delivers no traversal error. *)
Theorem lintPackageFs_no_linters (lctx : LinterContext) (fsys : FS) :
  lintPackageFs lctx fsys [] = None <->
  Forall (fun ev : string * option DirEntry * option error => snd ev = None) (walk_events fsys).
Proof.
  rewrite lintPackageFs_none_iff, !Forall_forall. split.
  - intros H [[p d] err] Hev. destruct (H _ Hev) as [He _]. exact He.
  - intros H [[p d] err] Hev. split; [exact (H _ Hev)|].
    intros dd _ n [].
Qed.

(** X6: if a run succeeds with some checks, it succeeds with any list of
    names drawn from them: fewer, reordered or repeated. *)
Theorem lintPackageFs_success_incl (lctx : LinterContext) (fsys : FS) (l l' : list string) :
  incl l' l ->
  lintPackageFs lctx fsys l = None ->
  lintPackageFs lctx fsys l' = None.
Proof.
  intros Hincl. rewrite !lintPackageFs_none_iff, !Forall_forall.
  intros H [[p d] err] Hev. destruct (H _ Hev) as [He Hc]. split; [exact He|].
  intros dd Hdd n Hn. exact (Hc dd Hdd n (Hincl n Hn)).
Qed.

Definition ex_fs_clean : FS :=
  Tree (Node (ex_dir ".") [Node (ex_dir "etc") [Node (ex_file "passwd") [] None] None] None).

Lemma lintPackageFs_success_incl_witness :
  lintPackageFs ex_ctx ex_fs_clean ["varempty"; "setuidgid"] = None.
Proof.
  apply (lintPackageFs_success_incl ex_ctx ex_fs_clean default_linters).
  - intros n [H|[H|[]]]; subst; simpl; tauto.
  - reflexivity.
Defined.

(** X7: listing the checks twice over changes nothing: the run returns
    the same result as with the list once. *)
Theorem lintPackageFs_repeat_linters (lctx : LinterContext) (fsys : FS) (l : list string) :
  lintPackageFs lctx fsys (l ++ l)%list = lintPackageFs lctx fsys l.
Proof.
  rewrite !lintPackageFs_events. f_equal. apply map_ext.
  intros [[p [d|]] [e|]]; simpl; try reflexivity.
  rewrite run_linters_app. destruct (run_linters lctx p d l); reflexivity.
Qed.

(** X8: every error a run returns is one of three: a traversal error the
    walk delivered at some path, the unknown-linter error for a listed name
    absent from the registry, or the wrapped failure of a listed check on a
    visited entry with that check's hint; never a bare walk sentinel. *)
Theorem lintPackageFs_error_shape (lctx : LinterContext) (fsys : FS) (l : list string)
    (e : error) :
  lintPackageFs lctx fsys l = Some e ->
  (exists p d c, In (p, d, Some c) (walk_events fsys) /\ e = traverse_error p c) \/
  (exists n, In n l /\ lookup_Linter n = None /\ e = unknown_error n) \/
  (exists n p d lin cause, In n l /\ In (p, Some d, None) (walk_events fsys) /\
     lookup_Linter n = Some lin /\ LinterFn lin lctx p d = Some cause /\
     e = linter_error n p cause (Explain lin)).
Proof.
  rewrite lintPackageFs_steps. intros H.
  destruct (first_failure_some _ _ _ H) as [s [Hin Hs]].
  unfold steps in Hin. apply in_flat_map in Hin. destruct Hin as [[[p d] err] [Hev Hin]].
  destruct err as [c|]; simpl in Hin.
  - destruct Hin as [<-|[]]. left. exists p, d, c. split; [exact Hev|].
    simpl in Hs. congruence.
  - destruct d as [dd|]; [|destruct Hin].
    apply in_map_iff in Hin. destruct Hin as [n [<- Hn]]. simpl in Hs.
    destruct (lookup_Linter n) as [lin|] eqn:Hl.
    + destruct (LinterFn lin lctx p dd) as [cause|] eqn:Hf; [|discriminate].
      right; right. exists n, p, dd, lin, cause. repeat split; auto. congruence.
    + right; left. exists n. repeat split; auto. congruence.
Qed.

Lemma lintPackageFs_error_shape_witness :
  (exists p d c, In (p, d, Some c) (walk_events ex_fs_unreadable) /\
     traverse_error "etc" ex_readdir_error = traverse_error p c) \/
  (exists n, In n ["tempdir"] /\ lookup_Linter n = None /\
     traverse_error "etc" ex_readdir_error = unknown_error n) \/
  (exists n p d lin cause, In n ["tempdir"] /\ In (p, Some d, None) (walk_events ex_fs_unreadable) /\
     lookup_Linter n = Some lin /\ LinterFn lin ex_ctx p d = Some cause /\
     traverse_error "etc" ex_readdir_error = linter_error n p cause (Explain lin)).
Proof.
  apply (lintPackageFs_error_shape ex_ctx ex_fs_unreadable ["tempdir"]). reflexivity.
Defined.
